(** * The bounded random value driver of device-dcs

    A shallow embedding of [driver/simpledriver.go]: the driver's registry of
    random devices, its read and write callbacks and its lifecycle callbacks,
    followed by the properties the specification states about them.

    The driver is modelled after [Initialize] has run: the host calls
    [Initialize] before any other callback, and the state type below
    describes a driver whose logging client and registry exist. *)

From Stdlib Require Import ZArith String List Lia Bool.
From stdpp Require Import gmap strings list fin_maps.

Local Open Scope string_scope.
Local Open Scope Z_scope.

(** ** Go integer conversions *)

(** [wrapSigned w x] is the Go conversion of the integer [x] to the signed
    [w]-bit type: the value is kept modulo [2^w] and read back in two's
    complement. *)
Definition wrapSigned (w x : Z) : Z :=
  (x + 2 ^ (w - 1)) mod 2 ^ w - 2 ^ (w - 1).

Definition int8 (x : Z) : Z := wrapSigned 8 x.
Definition int16 (x : Z) : Z := wrapSigned 16 x.
Definition int32 (x : Z) : Z := wrapSigned 32 x.

(** ** The value types of the command model *)

(** The signed integer types.  The driver only asks a command value for an
    [int8], an [int16] or an [int32]; [Int64] stands for every type that all
    three accessors refuse. *)

Inductive ValueType : Type :=
| Int8
| Int16
| Int32
| Int64.

Definition ValueType_eqb (a b : ValueType) : bool :=
  match a, b with
  | Int8, Int8 | Int16, Int16 | Int32, Int32 | Int64, Int64 => true
  | _, _ => false
  end.

(** The range of the Go type behind each tag. *)
Definition typeFloor (t : ValueType) : Z :=
  match t with
  | Int8 => -128
  | Int16 => -32768
  | Int32 => -2147483648
  | Int64 => -9223372036854775808
  end.

Definition typeCeiling (t : ValueType) : Z :=
  match t with
  | Int8 => 127
  | Int16 => 32767
  | Int32 => 2147483647
  | Int64 => 9223372036854775807
  end.

Record ResourceOperation : Type := mkRO { Object : string }.

Record CommandRequest : Type := mkReq {
  reqRO : ResourceOperation;
  (* req.DeviceResource.Properties.Value.Type *)
  reqType : string
}.

(** Modelled from the spec: the command value of [pkg/models] is not among
    the available sources.  The spec describes an update as naming a field
    and "carrying a value of the matching width", and a read result as a
    value "tagged with the current timestamp and the requested type".  A
    command value is therefore the resource operation it answers, its
    timestamp, its type tag and its numeric content. *)
Record CommandValue : Type := mkCV {
  RO : ResourceOperation;
  Origin : Z;
  Type_ : ValueType;
  NumericValue : Z
}.

(** A command value is well typed when its content is a value of its tag's
    Go type. *)
Definition fits (cv : CommandValue) : Prop :=
  typeFloor (Type_ cv) <= NumericValue cv <= typeCeiling (Type_ cv).

(** ** Errors *)

(** The driver builds its errors with [fmt.Errorf]; one constructor stands for
    each format string, carrying the arguments of the format. *)
Inductive error : Type :=
(* randomDevice.value: the requested type is not supported *)
| ErrUnsupportedType (t : string)
(* "RandomDriver.HandleWriteCommands: %v" around an accessor's error *)
| ErrValue (cause : ValueType * ValueType)
(* "minimum value %d of %T must be int between %d ~ %d" *)
| ErrMinimum (v : Z) (floor ceiling : Z)
(* "maximum value %d of %T must be int between %d ~ %d" *)
| ErrMaximum (v : Z) (floor ceiling : Z)
(* "there is no matched device resource for %s" *)
| ErrNoMatch (param : CommandValue).

(** Modelled from the spec: the typed accessors of [pkg/models] are not among
    the available sources.  The driver reads [v, err := param.IntNValue()]:
    the accessor either fails or yields a value of the Go type [intN].  It
    fails when the command value does not carry "a value of the matching
    width" (its tag is another type, reported as the pair of the tag wanted
    and the tag found), and otherwise returns the content at that width: the
    result is an [intN] whatever the content. *)
Definition Int8Value (cv : CommandValue) : error + Z :=
  if ValueType_eqb (Type_ cv) Int8 then inr (int8 (NumericValue cv))
  else inl (ErrValue (Int8, Type_ cv)).

Definition Int16Value (cv : CommandValue) : error + Z :=
  if ValueType_eqb (Type_ cv) Int16 then inr (int16 (NumericValue cv))
  else inl (ErrValue (Int16, Type_ cv)).

Definition Int32Value (cv : CommandValue) : error + Z :=
  if ValueType_eqb (Type_ cv) Int32 then inr (int32 (NumericValue cv))
  else inl (ErrValue (Int32, Type_ cv)).

(** Modelled from the spec: the constructors of [pkg/models] are not among
    the available sources.  [NewIntNValue ro origin v] tags the value with
    the timestamp and the type. *)
Definition NewInt8Value (ro : ResourceOperation) (origin v : Z) : CommandValue :=
  mkCV ro origin Int8 v.
Definition NewInt16Value (ro : ResourceOperation) (origin v : Z) : CommandValue :=
  mkCV ro origin Int16 v.
Definition NewInt32Value (ro : ResourceOperation) (origin v : Z) : CommandValue :=
  mkCV ro origin Int32 v.

(** ** The random device *)

(** Modelled from the spec: the absolute width limits are constants of the
    driver package whose declarations are missing.  The spec gives them as
    the full signed range of each width. *)
Definition defMinInt8 : Z := -128.
Definition defMaxInt8 : Z := 127.
Definition defMinInt16 : Z := -32768.
Definition defMaxInt16 : Z := 32767.
Definition defMinInt32 : Z := -2147483648.
Definition defMaxInt32 : Z := 2147483647.

(** Modelled from the spec: the declaration of [randomDevice] is missing; the
    fields are the six the write callback assigns, each an [int64]. *)
Record randomDevice : Type := mkRandomDevice {
  minInt8 : Z;
  maxInt8 : Z;
  minInt16 : Z;
  maxInt16 : Z;
  minInt32 : Z;
  maxInt32 : Z
}.

(** Modelled from the spec: the body of [newRandomDevice] is missing.  A
    device is created with "default bounds = full legal range for each
    width". *)
Definition newRandomDevice : randomDevice :=
  mkRandomDevice defMinInt8 defMaxInt8 defMinInt16 defMaxInt16
                 defMinInt32 defMaxInt32.

(** Modelled from the spec: the generator's body is missing.  It produces "a
    pseudo-random integer within the device's current [min, max] range";
    [r] is the raw sample drawn from the pseudo-random source, folded into
    the range. *)
Definition randomInt (min max r : Z) : Z :=
  min + r mod (max - min + 1).

(** Modelled from the spec: the body of [randomDevice.value] is missing.  It
    generates within the current range of the requested width and "fails
    with UnsupportedType if requestedWidth is not one of the three supported
    widths". *)
Definition value (d : randomDevice) (valueType : string) (r : Z) : error + Z :=
  if String.eqb valueType "Int8" then inr (randomInt (minInt8 d) (maxInt8 d) r)
  else if String.eqb valueType "Int16" then inr (randomInt (minInt16 d) (maxInt16 d) r)
  else if String.eqb valueType "Int32" then inr (randomInt (minInt32 d) (maxInt32 d) r)
  else inl (ErrUnsupportedType valueType).

(** ** The driver *)

(** [lc] is the logging client, kept as the messages logged so far (newest
    first); [asyncCh] is the host's channel, which the driver stores and
    never uses; [randomDevices] is the registry.  The registry maps a name
    to a pointer in Go: a device found in it is updated in place, which the
    model renders by writing the updated device back under its name. *)
Record SimpleDriver : Type := mkSimpleDriver {
  lc : list string;
  asyncCh : N;
  randomDevices : gmap string randomDevice
}.

(** models.ProtocolProperties is a map from strings to strings. *)
Abbreviation ProtocolProperties := (gmap string string) (only parsing).

Definition DisconnectDevice (s : SimpleDriver) (deviceName : string)
    (protocols : gmap string ProtocolProperties) : SimpleDriver * option error :=
  (s, None).

Definition Initialize (lc0 : list string) (asyncCh0 : N) : SimpleDriver * option error :=
  (mkSimpleDriver lc0 asyncCh0 ∅, None).

(** Lines 45-49 and 82-86: look the device up, create and register it when it
    is not there. *)
Definition lookupOrCreate (s : SimpleDriver) (deviceName : string)
    : randomDevice * SimpleDriver :=
  match randomDevices s !! deviceName with
  | Some rd => (rd, s)
  | None =>
      let rd := newRandomDevice in
      (rd, mkSimpleDriver (lc s) (asyncCh s) (<[deviceName := rd]> (randomDevices s)))
  end.

(** The switch of lines 61-68, which has no default case: [cv] stays nil for
    any other type. *)
Definition readValue (req : CommandRequest) (now v : Z) : option CommandValue :=
  let t := reqType req in
  if String.eqb t "Int8" then Some (NewInt8Value (reqRO req) now (int8 v))
  else if String.eqb t "Int16" then Some (NewInt16Value (reqRO req) now (int16 v))
  else if String.eqb t "Int32" then Some (NewInt32Value (reqRO req) now (int32 v))
  else None.

(** The loop of lines 54-70 from request [i] on.  [rand i] is the raw sample
    the generator draws for request [i]. *)
Fixpoint readLoop (rd : randomDevice) (now : Z) (rand : nat -> Z) (i : nat)
    (reqs : list CommandRequest) : error + list (option CommandValue) :=
  match reqs with
  | [] => inr []
  | req :: rest =>
      match value rd (reqType req) (rand i) with
      | inl err => inl err
      | inr v =>
          match readLoop rd now rand (S i) rest with
          | inl err => inl err
          | inr res => inr (readValue req now v :: res)
          end
      end
  end.

(** [now] is the clock reading of line 52, in milliseconds. *)
Definition HandleReadCommands (s : SimpleDriver) (deviceName : string)
    (protocols : gmap string ProtocolProperties) (reqs : list CommandRequest)
    (now : Z) (rand : nat -> Z)
    : SimpleDriver * (error + list (option CommandValue)) :=
  let '(rd, s1) := lookupOrCreate s deviceName in
  (s1, readLoop rd now rand 0 reqs).

(** One iteration of the loop of lines 88-153: the switch on the name of the
    resource, an error or the device after the assignment. *)
Definition writeParam (rd : randomDevice) (param : CommandValue) : error + randomDevice :=
  let name := Object (RO param) in
  if String.eqb name "Min_Int8" then
    match Int8Value param with
    | inl err => inl err
    | inr v =>
        if v <? defMinInt8 then inl (ErrMinimum v defMinInt8 defMaxInt8)
        else inr (mkRandomDevice v (maxInt8 rd) (minInt16 rd) (maxInt16 rd)
                                 (minInt32 rd) (maxInt32 rd))
    end
  else if String.eqb name "Max_Int8" then
    match Int8Value param with
    | inl err => inl err
    | inr v =>
        if v >? defMaxInt8 then inl (ErrMaximum v defMinInt8 defMaxInt8)
        else inr (mkRandomDevice (minInt8 rd) v (minInt16 rd) (maxInt16 rd)
                                 (minInt32 rd) (maxInt32 rd))
    end
  else if String.eqb name "Min_Int16" then
    match Int16Value param with
    | inl err => inl err
    | inr v =>
        if v <? defMinInt16 then inl (ErrMinimum v defMinInt16 defMaxInt16)
        else inr (mkRandomDevice (minInt8 rd) (maxInt8 rd) v (maxInt16 rd)
                                 (minInt32 rd) (maxInt32 rd))
    end
  else if String.eqb name "Max_Int16" then
    match Int16Value param with
    | inl err => inl err
    | inr v =>
        if v >? defMaxInt16 then inl (ErrMaximum v defMinInt16 defMaxInt16)
        else inr (mkRandomDevice (minInt8 rd) (maxInt8 rd) (minInt16 rd) v
                                 (minInt32 rd) (maxInt32 rd))
    end
  else if String.eqb name "Min_Int32" then
    match Int32Value param with
    | inl err => inl err
    | inr v =>
        if v <? defMinInt32 then inl (ErrMinimum v defMinInt32 defMaxInt32)
        else inr (mkRandomDevice (minInt8 rd) (maxInt8 rd) (minInt16 rd) (maxInt16 rd)
                                 v (maxInt32 rd))
    end
  else if String.eqb name "Max_Int32" then
    match Int32Value param with
    | inl err => inl err
    | inr v =>
        if v >? defMaxInt32 then inl (ErrMaximum v defMinInt32 defMaxInt32)
        else inr (mkRandomDevice (minInt8 rd) (maxInt8 rd) (minInt16 rd) (maxInt16 rd)
                                 (minInt32 rd) v)
    end
  else inl (ErrNoMatch param).

(** The loop of lines 88-153: the device as the loop leaves it, and the error
    it returned with, if any.  The assignments made before an error stay. *)
Fixpoint writeLoop (rd : randomDevice) (params : list CommandValue)
    : randomDevice * option error :=
  match params with
  | [] => (rd, None)
  | param :: rest =>
      match writeParam rd param with
      | inl err => (rd, Some err)
      | inr rd' => writeLoop rd' rest
      end
  end.

Definition HandleWriteCommands (s : SimpleDriver) (deviceName : string)
    (protocols : gmap string ProtocolProperties) (reqs : list CommandRequest)
    (params : list CommandValue) : SimpleDriver * option error :=
  let '(rd, s1) := lookupOrCreate s deviceName in
  let '(rd', err) := writeLoop rd params in
  (mkSimpleDriver (lc s1) (asyncCh s1) (<[deviceName := rd']> (randomDevices s1)), err).

Definition Stop (s : SimpleDriver) (force : bool) : SimpleDriver * option error :=
  let msg := String.append "SimpleDriver.Stop called: force="
                           (if force then "true" else "false") in
  (mkSimpleDriver (msg :: lc s) (asyncCh s) (randomDevices s), None).

(** ** Vocabulary of the specification *)

(** The three supported widths of a read. *)
Inductive width : Type := W8 | W16 | W32.

Definition typeName (w : width) : string :=
  match w with W8 => "Int8" | W16 => "Int16" | W32 => "Int32" end.

Definition typeTag (w : width) : ValueType :=
  match w with W8 => Int8 | W16 => Int16 | W32 => Int32 end.

Definition supported (t : string) : Prop := exists w, t = typeName w.

Definition currentMin (rd : randomDevice) (w : width) : Z :=
  match w with W8 => minInt8 rd | W16 => minInt16 rd | W32 => minInt32 rd end.

Definition currentMax (rd : randomDevice) (w : width) : Z :=
  match w with W8 => maxInt8 rd | W16 => maxInt16 rd | W32 => maxInt32 rd end.

Definition floorOf (w : width) : Z :=
  match w with W8 => defMinInt8 | W16 => defMinInt16 | W32 => defMinInt32 end.

Definition ceilingOf (w : width) : Z :=
  match w with W8 => defMaxInt8 | W16 => defMaxInt16 | W32 => defMaxInt32 end.

(** The six bounds a write can name. *)
Inductive bound : Type := Lower (w : width) | Upper (w : width).

Definition boundName (b : bound) : string :=
  match b with
  | Lower W8 => "Min_Int8" | Upper W8 => "Max_Int8"
  | Lower W16 => "Min_Int16" | Upper W16 => "Max_Int16"
  | Lower W32 => "Min_Int32" | Upper W32 => "Max_Int32"
  end.

Definition boundWidth (b : bound) : width :=
  match b with Lower w | Upper w => w end.

Definition getBound (b : bound) (rd : randomDevice) : Z :=
  match b with
  | Lower w => currentMin rd w
  | Upper w => currentMax rd w
  end.

Definition recognized (name : string) : Prop := exists b, name = boundName b.

(** The typed accessor the driver uses for a bound of width [w]. *)
Definition valueAt (w : width) (cv : CommandValue) : error + Z :=
  match w with
  | W8 => Int8Value cv
  | W16 => Int16Value cv
  | W32 => Int32Value cv
  end.

(** The device a callback works on: the registered one, or a new one. *)
Definition device (s : SimpleDriver) (deviceName : string) : randomDevice :=
  fst (lookupOrCreate s deviceName).

(** The checks of the write callback bound each minimum from below and each
    maximum from above. *)
Definition withinLimits (rd : randomDevice) : Prop :=
  forall w, floorOf w <= currentMin rd w /\ currentMax rd w <= ceilingOf w.

(** What the specification asks for: [min <= max] for every width. *)
Definition ordered (rd : randomDevice) : Prop :=
  forall w, currentMin rd w <= currentMax rd w.

(** The assignment a write makes for bound [b]. *)
Definition setBound (b : bound) (v : Z) (rd : randomDevice) : randomDevice :=
  match b with
  | Lower W8 => mkRandomDevice v (maxInt8 rd) (minInt16 rd) (maxInt16 rd) (minInt32 rd) (maxInt32 rd)
  | Upper W8 => mkRandomDevice (minInt8 rd) v (minInt16 rd) (maxInt16 rd) (minInt32 rd) (maxInt32 rd)
  | Lower W16 => mkRandomDevice (minInt8 rd) (maxInt8 rd) v (maxInt16 rd) (minInt32 rd) (maxInt32 rd)
  | Upper W16 => mkRandomDevice (minInt8 rd) (maxInt8 rd) (minInt16 rd) v (minInt32 rd) (maxInt32 rd)
  | Lower W32 => mkRandomDevice (minInt8 rd) (maxInt8 rd) (minInt16 rd) (maxInt16 rd) v (maxInt32 rd)
  | Upper W32 => mkRandomDevice (minInt8 rd) (maxInt8 rd) (minInt16 rd) (maxInt16 rd) (minInt32 rd) v
  end.

(** The range check a write makes for bound [b]. *)
Definition rangeError (b : bound) (v : Z) : option error :=
  match b with
  | Lower w =>
      if v <? floorOf w then Some (ErrMinimum v (floorOf w) (ceilingOf w)) else None
  | Upper w =>
      if v >? ceilingOf w then Some (ErrMaximum v (floorOf w) (ceilingOf w)) else None
  end.

(** The limits hold for every registered device. *)
Definition limitsHold (s : SimpleDriver) : Prop :=
  forall d rd, randomDevices s !! d = Some rd -> withinLimits rd.


(** A driver state the host can reach: [Initialize], then any callbacks. *)
Inductive reachable : SimpleDriver -> Prop :=
| reach_Initialize lc0 ch :
    reachable (fst (Initialize lc0 ch))
| reach_Read s d p reqs now rand :
    reachable s -> reachable (fst (HandleReadCommands s d p reqs now rand))
| reach_Write s d p reqs params :
    reachable s -> reachable (fst (HandleWriteCommands s d p reqs params))
| reach_Disconnect s d p :
    reachable s -> reachable (fst (DisconnectDevice s d p))
| reach_Stop s force :
    reachable s -> reachable (fst (Stop s force)).

(** An update that the write callback accepts, and one that it rejects with
    [err], whatever the device it is applied to. *)
Definition validUpdate (param : CommandValue) : Prop :=
  forall rd, exists rd', writeParam rd param = inr rd'.

Definition rejected (param : CommandValue) (err : error) : Prop :=
  forall rd, writeParam rd param = inl err.

(** Shorthands for concrete inputs. *)
Definition update (name : string) (t : ValueType) (v : Z) : CommandValue :=
  mkCV (mkRO name) 0 t v.

Definition request (t : string) : CommandRequest := mkReq (mkRO t) t.

Definition fresh : SimpleDriver := fst (Initialize [] 0%N).

(** The value the last update of a batch that names bound [b] carries, if
    the batch has one. *)
Fixpoint lastWritten (b : bound) (params : list CommandValue) : option Z :=
  match params with
  | [] => None
  | param :: rest =>
      match lastWritten b rest with
      | Some v => Some v
      | None =>
          if String.eqb (Object (RO param)) (boundName b) then
            match valueAt (boundWidth b) param with
            | inr v => Some v
            | inl _ => None
            end
          else None
      end
  end.

(** The shape of what a successful read stores for one request: a command
    value for the request's resource operation, stamped with the clock
    reading, of the requested type, whose content is a value of that type. *)
Definition stamped (now : Z) (req : CommandRequest) (res : option CommandValue)
    : Prop :=
  exists w cv,
    reqType req = typeName w /\ res = Some cv /\
    RO cv = reqRO req /\ Origin cv = now /\ Type_ cv = typeTag w /\ fits cv.

(** * Properties *)

(** ** Arithmetic of the conversions and of the generator *)

Ltac unfold_limits :=
  unfold defMinInt8, defMaxInt8, defMinInt16, defMaxInt16,
         defMinInt32, defMaxInt32 in *.

Lemma wrapSigned_small w x :
  0 < w -> - 2 ^ (w - 1) <= x < 2 ^ (w - 1) -> wrapSigned w x = x.
Proof.
  intros Hw Hx. unfold wrapSigned.
  assert (Hp : 2 ^ w = 2 * 2 ^ (w - 1)).
  { replace w with (Z.succ (w - 1)) at 1 by lia. apply Z.pow_succ_r. lia. }
  rewrite Z.mod_small; lia.
Qed.

Lemma wrapSigned_range w x :
  0 < w -> - 2 ^ (w - 1) <= wrapSigned w x < 2 ^ (w - 1).
Proof.
  intros Hw. unfold wrapSigned.
  assert (Hp : 2 ^ w = 2 * 2 ^ (w - 1)).
  { replace w with (Z.succ (w - 1)) at 1 by lia. apply Z.pow_succ_r. lia. }
  assert (0 < 2 ^ (w - 1)) by (apply Z.pow_pos_nonneg; lia).
  pose proof (Z.mod_pos_bound (x + 2 ^ (w - 1)) (2 ^ w)). lia.
Qed.

Lemma int8_small x : -128 <= x <= 127 -> int8 x = x.
Proof. intros H. apply wrapSigned_small; simpl; lia. Qed.

Lemma int16_small x : -32768 <= x <= 32767 -> int16 x = x.
Proof. intros H. apply wrapSigned_small; simpl; lia. Qed.

Lemma int32_small x : -2147483648 <= x <= 2147483647 -> int32 x = x.
Proof. intros H. apply wrapSigned_small; simpl; lia. Qed.

Lemma int8_range x : -128 <= int8 x <= 127.
Proof. pose proof (wrapSigned_range 8 x); unfold int8; simpl in *; lia. Qed.

Lemma int16_range x : -32768 <= int16 x <= 32767.
Proof. pose proof (wrapSigned_range 16 x); unfold int16; simpl in *; lia. Qed.

Lemma int32_range x : -2147483648 <= int32 x <= 2147483647.
Proof. pose proof (wrapSigned_range 32 x); unfold int32; simpl in *; lia. Qed.

Lemma randomInt_range min max r :
  min <= max -> min <= randomInt min max r <= max.
Proof.
  intros H. unfold randomInt.
  pose proof (Z.mod_pos_bound r (max - min + 1)). lia.
Qed.

(** ** The write switch, case by case *)

Lemma writeParam_recognized rd param b :
  Object (RO param) = boundName b ->
  writeParam rd param =
    match valueAt (boundWidth b) param with
    | inl err => inl err
    | inr v =>
        match rangeError b v with
        | Some err => inl err
        | None => inr (setBound b v rd)
        end
    end.
Proof.
  intros Hname. unfold writeParam. rewrite Hname.
  destruct b as [[]|[]]; simpl;
    match goal with |- context [match ?a with inl _ => _ | inr _ => _ end] =>
      destruct a as [err|v]; [reflexivity|] end;
    match goal with |- context [if ?c then _ else _] => destruct c; reflexivity end.
Qed.

Lemma recognized_cases name :
  recognized name \/
  (String.eqb name "Min_Int8" = false /\ String.eqb name "Max_Int8" = false /\
   String.eqb name "Min_Int16" = false /\ String.eqb name "Max_Int16" = false /\
   String.eqb name "Min_Int32" = false /\ String.eqb name "Max_Int32" = false).
Proof.
  destruct (String.eqb_spec name "Min_Int8") as [->|_]; [left; by exists (Lower W8)|].
  destruct (String.eqb_spec name "Max_Int8") as [->|_]; [left; by exists (Upper W8)|].
  destruct (String.eqb_spec name "Min_Int16") as [->|_]; [left; by exists (Lower W16)|].
  destruct (String.eqb_spec name "Max_Int16") as [->|_]; [left; by exists (Upper W16)|].
  destruct (String.eqb_spec name "Min_Int32") as [->|_]; [left; by exists (Lower W32)|].
  destruct (String.eqb_spec name "Max_Int32") as [->|_]; [left; by exists (Upper W32)|].
  right. repeat split; reflexivity.
Qed.

Lemma writeParam_unrecognized rd param :
  ~ recognized (Object (RO param)) ->
  writeParam rd param = inl (ErrNoMatch param).
Proof.
  intros Hn. destruct (recognized_cases (Object (RO param))) as [H|H]; [tauto|].
  destruct H as (H1 & H2 & H3 & H4 & H5 & H6).
  unfold writeParam. by rewrite H1, H2, H3, H4, H5, H6.
Qed.

Lemma boundName_inj b1 b2 : boundName b1 = boundName b2 -> b1 = b2.
Proof. destruct b1 as [[]|[]], b2 as [[]|[]]; simpl; congruence. Qed.

(** Whether an update is rejected, and with which error, does not depend on
    the device. *)
Lemma writeParam_error_any rd1 rd2 param err :
  writeParam rd1 param = inl err -> writeParam rd2 param = inl err.
Proof.
  destruct (recognized_cases (Object (RO param))) as [[b Hb]|Hn].
  - rewrite !(writeParam_recognized _ _ b Hb).
    destruct (valueAt _ param) as [e|v]; [done|].
    destruct (rangeError b v); [done|discriminate].
  - assert (Hnr : ~ recognized (Object (RO param))).
    { intros [b Hb]. destruct Hn as (H1 & H2 & H3 & H4 & H5 & H6).
      rewrite Hb in *. destruct b as [[]|[]]; discriminate. }
    by rewrite !(writeParam_unrecognized _ _ Hnr).
Qed.

Lemma writeParam_ok_any rd1 rd2 param rd1' :
  writeParam rd1 param = inr rd1' -> exists rd2', writeParam rd2 param = inr rd2'.
Proof.
  intros H. destruct (writeParam rd2 param) as [err|rd2'] eqn:E; [|eauto].
  apply (writeParam_error_any rd2 rd1) in E. congruence.
Qed.

Lemma getBound_setBound b v rd : getBound b (setBound b v rd) = v.
Proof. by destruct b as [[]|[]]. Qed.

Lemma getBound_setBound_ne b b' v rd :
  b' <> b -> getBound b' (setBound b v rd) = getBound b' rd.
Proof. destruct b as [[]|[]], b' as [[]|[]]; simpl; congruence. Qed.

(** A write that is accepted keeps every minimum above its floor and every
    maximum below its ceiling. *)
Lemma writeParam_withinLimits rd param rd' :
  withinLimits rd -> writeParam rd param = inr rd' -> withinLimits rd'.
Proof.
  intros Hrd Hw.
  destruct (recognized_cases (Object (RO param))) as [[b Hb]|Hn].
  - rewrite (writeParam_recognized _ _ b Hb) in Hw.
    destruct (valueAt _ param) as [e|v]; [discriminate|].
    destruct (rangeError b v) eqn:Hr; [discriminate|].
    injection Hw as <-.
    intros w. specialize (Hrd w) as Hw0.
    destruct b as [wb|wb]; simpl in Hr;
      [destruct (Z.ltb_spec v (floorOf wb)) | destruct (Z.gtb_spec v (ceilingOf wb))];
      try discriminate;
      destruct wb, w; simpl in *; lia.
  - destruct Hn as (H1 & H2 & H3 & H4 & H5 & H6).
    unfold writeParam in Hw. rewrite H1, H2, H3, H4, H5, H6 in Hw. discriminate.
Qed.

Lemma writeLoop_withinLimits params : forall rd,
  withinLimits rd -> withinLimits (fst (writeLoop rd params)).
Proof.
  induction params as [|param rest IH]; intros rd Hrd; simpl; [done|].
  destruct (writeParam rd param) as [err|rd'] eqn:E; [done|].
  apply IH. eapply writeParam_withinLimits; eauto.
Qed.

(** The loop over a batch cut in two: the second part runs only when the
    first went through, on the device the first part left. *)
Lemma writeLoop_app pre post : forall rd,
  writeLoop rd (pre ++ post) =
    match writeLoop rd pre with
    | (rd', None) => writeLoop rd' post
    | (rd', Some err) => (rd', Some err)
    end.
Proof.
  induction pre as [|param rest IH]; intros rd; simpl; [done|].
  destruct (writeParam rd param) as [err|rd']; [done|apply IH].
Qed.

Lemma newRandomDevice_withinLimits : withinLimits newRandomDevice.
Proof. intros []; simpl; unfold newRandomDevice; simpl; lia. Qed.

(** ** The registry *)

Lemma lookupOrCreate_lookup s d :
  randomDevices (snd (lookupOrCreate s d)) !! d = Some (device s d).
Proof.
  unfold device, lookupOrCreate.
  destruct (randomDevices s !! d) as [rd|] eqn:E; simpl; [done|].
  apply lookup_insert_eq.
Qed.

Lemma lookupOrCreate_other s d d' :
  d' <> d ->
  randomDevices (snd (lookupOrCreate s d)) !! d' = randomDevices s !! d'.
Proof.
  intros Hne. unfold lookupOrCreate.
  destruct (randomDevices s !! d) as [rd|] eqn:E; simpl; [done|].
  by apply lookup_insert_ne.
Qed.

Lemma lookupOrCreate_known s d rd :
  randomDevices s !! d = Some rd -> lookupOrCreate s d = (rd, s).
Proof. intros H. unfold lookupOrCreate. by rewrite H. Qed.

Lemma lookupOrCreate_unknown s d :
  randomDevices s !! d = None ->
  lookupOrCreate s d =
    (newRandomDevice,
     mkSimpleDriver (lc s) (asyncCh s) (<[d := newRandomDevice]> (randomDevices s))).
Proof. intros H. unfold lookupOrCreate. by rewrite H. Qed.

(** Every device that was registered is still registered, with the bounds it
    had. *)
Lemma lookupOrCreate_keeps s d d' rd :
  randomDevices s !! d' = Some rd ->
  randomDevices (snd (lookupOrCreate s d)) !! d' = Some rd.
Proof.
  intros H. destruct (decide (d' = d)) as [->|Hne].
  - by rewrite (lookupOrCreate_known _ _ _ H).
  - by rewrite lookupOrCreate_other.
Qed.

Lemma HandleReadCommands_state s d p reqs now rand :
  fst (HandleReadCommands s d p reqs now rand) = snd (lookupOrCreate s d).
Proof. unfold HandleReadCommands. by destruct (lookupOrCreate s d). Qed.

Lemma HandleReadCommands_result s d p reqs now rand :
  snd (HandleReadCommands s d p reqs now rand) = readLoop (device s d) now rand 0 reqs.
Proof. unfold HandleReadCommands, device. by destruct (lookupOrCreate s d). Qed.

Lemma HandleWriteCommands_result s d p reqs params :
  snd (HandleWriteCommands s d p reqs params) = snd (writeLoop (device s d) params).
Proof.
  unfold HandleWriteCommands, device.
  destruct (lookupOrCreate s d) as [rd s1]; simpl. by destruct (writeLoop rd params).
Qed.

Lemma HandleWriteCommands_lookup s d p reqs params :
  randomDevices (fst (HandleWriteCommands s d p reqs params)) !! d =
    Some (fst (writeLoop (device s d) params)).
Proof.
  unfold HandleWriteCommands, device.
  destruct (lookupOrCreate s d) as [rd s1]; simpl.
  destruct (writeLoop rd params); simpl. apply lookup_insert_eq.
Qed.

Lemma HandleWriteCommands_other s d p reqs params d' :
  d' <> d ->
  randomDevices (fst (HandleWriteCommands s d p reqs params)) !! d' =
    randomDevices s !! d'.
Proof.
  intros Hne. unfold HandleWriteCommands.
  pose proof (lookupOrCreate_other s d d' Hne) as Hs.
  destruct (lookupOrCreate s d) as [rd s1]; simpl in *.
  destruct (writeLoop rd params); simpl. by rewrite lookup_insert_ne.
Qed.

(** ** The limits hold in every reachable state *)

Lemma device_withinLimits s d : limitsHold s -> withinLimits (device s d).
Proof.
  intros Hs. unfold device, lookupOrCreate.
  destruct (randomDevices s !! d) as [rd|] eqn:E; simpl.
  - by apply (Hs d).
  - apply newRandomDevice_withinLimits.
Qed.

Lemma lookupOrCreate_limitsHold s d :
  limitsHold s -> limitsHold (snd (lookupOrCreate s d)).
Proof.
  intros Hs d' rd' H. destruct (decide (d' = d)) as [->|Hne].
  - rewrite lookupOrCreate_lookup in H. injection H as <-.
    by apply device_withinLimits.
  - rewrite lookupOrCreate_other in H by done. by apply (Hs d').
Qed.

Lemma HandleWriteCommands_limitsHold s d p reqs params :
  limitsHold s -> limitsHold (fst (HandleWriteCommands s d p reqs params)).
Proof.
  intros Hs d' rd' H. destruct (decide (d' = d)) as [->|Hne].
  - rewrite HandleWriteCommands_lookup in H. injection H as <-.
    apply writeLoop_withinLimits. by apply device_withinLimits.
  - rewrite HandleWriteCommands_other in H by done. by apply (Hs d').
Qed.

Lemma reachable_limitsHold s : reachable s -> limitsHold s.
Proof.
  induction 1 as [lc0 ch|s d p reqs now rand _ IH|s d p reqs params _ IH
                 |s d p _ IH|s force _ IH].
  - intros d rd H. simpl in H. by rewrite lookup_empty in H.
  - rewrite HandleReadCommands_state. by apply lookupOrCreate_limitsHold.
  - by apply HandleWriteCommands_limitsHold.
  - exact IH.
  - exact IH.
Qed.

(** ** Reading *)

Lemma value_supported rd w r :
  value rd (typeName w) r = inr (randomInt (currentMin rd w) (currentMax rd w) r).
Proof. by destruct w. Qed.

Lemma value_unsupported rd t r :
  ~ supported t -> value rd t r = inl (ErrUnsupportedType t).
Proof.
  intros Hn. unfold value.
  destruct (String.eqb_spec t "Int8") as [->|_]; [destruct Hn; by exists W8|].
  destruct (String.eqb_spec t "Int16") as [->|_]; [destruct Hn; by exists W16|].
  destruct (String.eqb_spec t "Int32") as [->|_]; [destruct Hn; by exists W32|].
  reflexivity.
Qed.

Lemma supported_dec t : supported t \/ ~ supported t.
Proof.
  destruct (String.eqb_spec t "Int8") as [->|H8]; [left; by exists W8|].
  destruct (String.eqb_spec t "Int16") as [->|H16]; [left; by exists W16|].
  destruct (String.eqb_spec t "Int32") as [->|H32]; [left; by exists W32|].
  right. intros [[] ->]; simpl in *; congruence.
Qed.

(** The conversion of line 63, 65 or 67 changes nothing on a value between
    the floor and the ceiling of the width. *)
Lemma readValue_supported ro w now v :
  floorOf w <= v <= ceilingOf w ->
  readValue (mkReq ro (typeName w)) now v = Some (mkCV ro now (typeTag w) v).
Proof.
  intros Hv. destruct w; unfold readValue; simpl in *;
    unfold NewInt8Value, NewInt16Value, NewInt32Value;
    [rewrite int8_small|rewrite int16_small|rewrite int32_small];
    unfold_limits; done || lia.
Qed.


(** A read fails on the first request of an unsupported type. *)
Lemma readLoop_unsupported rd now rand reqs : forall i,
  Exists (fun req => ~ supported (reqType req)) reqs ->
  exists t, In t (map reqType reqs) /\ ~ supported t /\
            readLoop rd now rand i reqs = inl (ErrUnsupportedType t).
Proof.
  induction reqs as [|req rest IH]; intros i Hex; [by inversion Hex|].
  simpl. destruct (supported_dec (reqType req)) as [[w Hw]|Hn].
  - rewrite Hw, value_supported.
    destruct IH with (i := S i) as (t & Hin & Hnt & ->).
    { inversion Hex as [? ? H|]; subst; [|done]. destruct H. by exists w. }
    exists t. repeat split; auto.
  - rewrite (value_unsupported _ _ _ Hn). exists (reqType req). auto.
Qed.

(** ** Writing a batch *)

(** Every update is either accepted on every device or rejected on every
    device with one error: the first invalid update of a batch is well
    defined. *)
Lemma validUpdate_or_rejected param :
  validUpdate param \/ exists err, rejected param err.
Proof.
  destruct (writeParam newRandomDevice param) as [err|rd'] eqn:E.
  - right. exists err. intros rd. by apply (writeParam_error_any newRandomDevice).
  - left. intros rd. by apply (writeParam_ok_any newRandomDevice _ _ rd').
Qed.

Lemma writeLoop_valid pre : forall rd,
  Forall validUpdate pre -> snd (writeLoop rd pre) = None.
Proof.
  induction pre as [|param rest IH]; intros rd Hpre; simpl; [done|].
  inversion Hpre as [|? ? Hparam Hrest]; subst.
  destruct (Hparam rd) as [rd' ->]. by apply IH.
Qed.

(** A batch with a rejected update: the loop ends on the device that the
    updates before it left, with their error if one of them failed and with
    the error of the rejected update otherwise. *)
Lemma writeLoop_rejected pre bad post err rd :
  rejected bad err ->
  writeLoop rd (pre ++ bad :: post) =
    (fst (writeLoop rd pre),
     match snd (writeLoop rd pre) with
     | None => Some err
     | Some earlier => Some earlier
     end).
Proof.
  intros Hbad. rewrite writeLoop_app.
  destruct (writeLoop rd pre) as [rd' [earlier|]]; simpl; [done|].
  by rewrite Hbad.
Qed.

Lemma HandleWriteCommands_unfold s d p reqs params :
  HandleWriteCommands s d p reqs params =
    (mkSimpleDriver (lc s) (asyncCh s)
       (<[d := fst (writeLoop (device s d) params)]> (randomDevices s)),
     snd (writeLoop (device s d) params)).
Proof.
  unfold HandleWriteCommands, device, lookupOrCreate.
  destruct (randomDevices s !! d) as [rd|] eqn:E; simpl;
    destruct (writeLoop _ params) as [rd' r]; simpl; [done|].
  by rewrite insert_insert_eq.
Qed.

Lemma HandleWriteCommands_rejected s d p reqs pre bad post err :
  rejected bad err ->
  HandleWriteCommands s d p reqs (pre ++ bad :: post) =
    (fst (HandleWriteCommands s d p reqs pre),
     match snd (HandleWriteCommands s d p reqs pre) with
     | None => Some err
     | Some earlier => Some earlier
     end).
Proof.
  intros Hbad. rewrite !HandleWriteCommands_unfold.
  by rewrite (writeLoop_rejected _ _ _ _ _ Hbad).
Qed.

(** The range checks of the write callback compare a value of a width with
    the full range of that width: they never fire. *)
Lemma valueAt_range w param v :
  valueAt w param = inr v -> floorOf w <= v <= ceilingOf w.
Proof.
  destruct w; simpl; unfold Int8Value, Int16Value, Int32Value;
    destruct (ValueType_eqb _ _); intros H; try discriminate;
    injection H as <-;
    [pose proof (int8_range (NumericValue param))
    |pose proof (int16_range (NumericValue param))
    |pose proof (int32_range (NumericValue param))];
    unfold_limits; lia.
Qed.

Lemma rangeError_never b param v :
  valueAt (boundWidth b) param = inr v -> rangeError b v = None.
Proof.
  intros Hv. apply valueAt_range in Hv.
  destruct b as [w|w]; simpl in *.
  - destruct (Z.ltb_spec v (floorOf w)); [lia|done].
  - destruct (Z.gtb_spec v (ceilingOf w)); [lia|done].
Qed.



(** ** What a batch that goes through leaves *)

Lemma boundName_eqb b b' :
  String.eqb (boundName b') (boundName b) = true <-> b' = b.
Proof.
  rewrite String.eqb_eq. split; [apply boundName_inj|by intros ->].
Qed.

(** An accepted update is the assignment of one bound. *)
Lemma writeParam_accepted rd param rd' :
  writeParam rd param = inr rd' ->
  exists b v, Object (RO param) = boundName b /\
              valueAt (boundWidth b) param = inr v /\ rd' = setBound b v rd.
Proof.
  intros Hw. destruct (recognized_cases (Object (RO param))) as [[b Hb]|Hn].
  - rewrite (writeParam_recognized _ _ b Hb) in Hw.
    destruct (valueAt (boundWidth b) param) as [e|v] eqn:Hv; [discriminate|].
    destruct (rangeError b v); [discriminate|]. injection Hw as <-. eauto.
  - destruct Hn as (H1 & H2 & H3 & H4 & H5 & H6).
    unfold writeParam in Hw. rewrite H1, H2, H3, H4, H5, H6 in Hw. discriminate.
Qed.

(** After a batch that goes through, each bound holds the value of the last
    update that names it, or the value it had. *)
Lemma writeLoop_lastWritten params : forall rd b,
  snd (writeLoop rd params) = None ->
  getBound b (fst (writeLoop rd params)) =
    default (getBound b rd) (lastWritten b params).
Proof.
  induction params as [|param rest IH]; intros rd b Hok; simpl in *; [done|].
  destruct (writeParam rd param) as [err|rd'] eqn:Hw; [discriminate|].
  rewrite (IH rd' b Hok).
  destruct (lastWritten b rest) as [v|]; simpl; [done|].
  destruct (writeParam_accepted _ _ _ Hw) as (b0 & v0 & Hname & Hv & ->).
  rewrite Hname.
  destruct (String.eqb (boundName b0) (boundName b)) eqn:E.
  - apply boundName_eqb in E. subst b0. rewrite Hv. simpl. apply getBound_setBound.
  - simpl. apply getBound_setBound_ne. intros ->.
    assert (H : String.eqb (boundName b0) (boundName b0) = true) by by apply boundName_eqb.
    congruence.
Qed.

(** * The claims of the specification *)

(** ** C1: a read stays within the current bounds *)




(** ** C2: the order of the bounds *)

(** C2, as stated, fails: with the 8-bit minimum at 100, the update
    [Max_Int8 = 50] would make the maximum fall below the minimum; it is not
    rejected, and the state has [min > max]. *)
Lemma C2_write_accepts_max_below_min :
  let w1 := HandleWriteCommands fresh "d" ∅ [] [update "Min_Int8" Int8 100] in
  let w2 := HandleWriteCommands (fst w1) "d" ∅ [] [update "Max_Int8" Int8 50] in
  snd w1 = None /\ snd w2 = None /\
  exists rd, randomDevices (fst w2) !! "d" = Some rd /\
             minInt8 rd = 100 /\ maxInt8 rd = 50 /\ ~ ordered rd.
Proof.
  split; [reflexivity|]. split; [reflexivity|].
  eexists. split; [vm_compute; reflexivity|].
  split; [reflexivity|]. split; [reflexivity|].
  intros H. specialize (H W8). simpl in H. lia.
Qed.

(** C2, amended: at all times, for every device and every width, the minimum
    is at or above the absolute floor and the maximum is at or below the
    absolute ceiling of the width, and an update that a write rejects
    changes no bound of the device.  The write callback never compares a
    minimum with the corresponding maximum. *)
Theorem C2_limits_hold_at_all_times s :
  reachable s ->
  (forall d rd, randomDevices s !! d = Some rd ->
     forall w, floorOf w <= currentMin rd w /\ currentMax rd w <= ceilingOf w) /\
  (forall d p reqs param err,
     snd (HandleWriteCommands s d p reqs [param]) = Some err ->
     randomDevices (fst (HandleWriteCommands s d p reqs [param])) !! d
       = Some (device s d)).
Proof.
  intros Hs. split.
  - intros d rd Hrd. by apply (reachable_limitsHold s Hs d rd).
  - intros d p reqs param err. rewrite HandleWriteCommands_result,
      HandleWriteCommands_lookup. simpl.
    destruct (writeParam (device s d) param) as [e|rd'] eqn:E; simpl; [done|].
    discriminate.
Qed.

Lemma C2_limits_hold_at_all_times_witness :
  let s := fst (HandleWriteCommands fresh "d" ∅ [] [update "Min_Int8" Int8 100]) in
  (forall d rd, randomDevices s !! d = Some rd ->
     forall w, floorOf w <= currentMin rd w /\ currentMax rd w <= ceilingOf w) /\
  (forall d p reqs param err,
     snd (HandleWriteCommands s d p reqs [param]) = Some err ->
     randomDevices (fst (HandleWriteCommands s d p reqs [param])) !! d
       = Some (device s d)).
Proof.
  apply C2_limits_hold_at_all_times.
  apply reach_Write. apply reach_Initialize.
Defined.

(** ** C3: a batch fails fast *)

(** C3: when the updates [pre] of a batch are valid and the next one, [bad],
    is rejected with [err], the call returns [err] and leaves the driver
    exactly as the successful call on [pre] alone leaves it.  The updates
    before the failure are applied: the device is registered, and each of
    its bounds holds the value of the last update of [pre] that names it, or
    the value it had when [pre] names it nowhere.  None of [post] is
    applied, and the other devices are as they were. *)
Theorem C3_write_fails_fast s d p reqs pre bad post err :
  Forall validUpdate pre ->
  rejected bad err ->
  snd (HandleWriteCommands s d p reqs pre) = None /\
  HandleWriteCommands s d p reqs (pre ++ bad :: post) =
    (fst (HandleWriteCommands s d p reqs pre), Some err) /\
  (exists rd',
     randomDevices (fst (HandleWriteCommands s d p reqs (pre ++ bad :: post))) !! d
       = Some rd' /\
     forall b, getBound b rd' =
               default (getBound b (device s d)) (lastWritten b pre)) /\
  (forall d', d' <> d ->
     randomDevices (fst (HandleWriteCommands s d p reqs (pre ++ bad :: post))) !! d'
       = randomDevices s !! d').
Proof.
  intros Hpre Hbad.
  assert (Hok : snd (HandleWriteCommands s d p reqs pre) = None).
  { rewrite HandleWriteCommands_result. by apply writeLoop_valid. }
  assert (Heq : HandleWriteCommands s d p reqs (pre ++ bad :: post) =
                  (fst (HandleWriteCommands s d p reqs pre), Some err)).
  { rewrite (HandleWriteCommands_rejected _ _ _ _ _ _ _ _ Hbad). by rewrite Hok. }
  split; [done|]. split; [done|]. rewrite Heq. simpl. split.
  - exists (fst (writeLoop (device s d) pre)).
    split; [apply HandleWriteCommands_lookup|].
    intros b. apply writeLoop_lastWritten. by apply writeLoop_valid.
  - intros d' Hne. by apply HandleWriteCommands_other.
Qed.

Lemma C3_write_fails_fast_witness :
  let pre := [update "Min_Int8" Int8 (-5); update "Max_Int16" Int16 40;
              update "Min_Int8" Int8 (-7)] in
  let bad := update "Max_Int8" Int16 300 in
  let post := [update "Max_Int16" Int16 9] in
  snd (HandleWriteCommands fresh "d" ∅ [] pre) = None /\
  HandleWriteCommands fresh "d" ∅ [] (pre ++ bad :: post) =
    (fst (HandleWriteCommands fresh "d" ∅ [] pre), Some (ErrValue (Int8, Int16))) /\
  (exists rd',
     randomDevices (fst (HandleWriteCommands fresh "d" ∅ [] (pre ++ bad :: post))) !! "d"
       = Some rd' /\
     forall b, getBound b rd' =
               default (getBound b (device fresh "d")) (lastWritten b pre)) /\
  (forall d', d' <> "d" ->
     randomDevices (fst (HandleWriteCommands fresh "d" ∅ [] (pre ++ bad :: post))) !! d'
       = randomDevices fresh !! d').
Proof.
  apply C3_write_fails_fast.
  - repeat constructor; intros rd; eexists; reflexivity.
  - intros rd. reflexivity.
Defined.

(** ** C4: a read of an unsupported type *)

(** C4, as stated, fails: a read of the unsupported type "Float32" on the
    unseen device "d" fails as it should, but the registry is not as it was
    before the call, it has gained an entry for "d". *)
Lemma C4_failed_read_registers_device :
  let r := HandleReadCommands fresh "d" ∅ [request "Float32"] 1000 (fun _ => 0) in
  snd r = inl (ErrUnsupportedType "Float32") /\
  randomDevices fresh !! "d" = None /\
  randomDevices (fst r) !! "d" = Some newRandomDevice /\
  randomDevices (fst r) <> randomDevices fresh.
Proof.
  intros r.
  assert (H : randomDevices (fst r) !! "d" = Some newRandomDevice)
    by (vm_compute; reflexivity).
  split; [vm_compute; reflexivity|]. split; [reflexivity|]. split; [exact H|].
  intros Heq. rewrite Heq in H. discriminate.
Qed.

(** C4, amended: a read with a request of an unsupported type fails with
    UnsupportedType, naming the first such type.  Every device that was in
    the registry is still there with exactly the bounds it had, the entries
    of all other names are as before, and when the device read was already
    registered the driver is unchanged; when it was not, the registry has
    gained an entry with the default bounds for it. *)
Theorem C4_unsupported_read_fails s d p reqs now rand :
  Exists (fun req => ~ supported (reqType req)) reqs ->
  let r := HandleReadCommands s d p reqs now rand in
  (exists t, In t (map reqType reqs) /\ ~ supported t /\
             snd r = inl (ErrUnsupportedType t)) /\
  (forall d' rd, randomDevices s !! d' = Some rd ->
                 randomDevices (fst r) !! d' = Some rd) /\
  (forall d', d' <> d -> randomDevices (fst r) !! d' = randomDevices s !! d') /\
  (is_Some (randomDevices s !! d) -> fst r = s) /\
  (randomDevices s !! d = None ->
     randomDevices (fst r) !! d = Some newRandomDevice) /\
  lc (fst r) = lc s /\ asyncCh (fst r) = asyncCh s.
Proof.
  intros Hex r. subst r.
  rewrite HandleReadCommands_state, HandleReadCommands_result.
  split; [by apply readLoop_unsupported|].
  split; [intros d' rd; apply lookupOrCreate_keeps|].
  split; [intros d'; apply lookupOrCreate_other|].
  split; [intros [rd Hrd]; by rewrite (lookupOrCreate_known _ _ _ Hrd)|].
  split.
  - intros Hnone. rewrite (lookupOrCreate_unknown _ _ Hnone). simpl.
    apply lookup_insert_eq.
  - unfold lookupOrCreate. by destruct (randomDevices s !! d).
Qed.

Lemma C4_unsupported_read_fails_witness :
  let s := fst (HandleWriteCommands fresh "known" ∅ [] [update "Max_Int8" Int8 9]) in
  let r := HandleReadCommands s "known" ∅ [request "Int8"; request "Bool"]
             1000 (fun _ => 3) in
  (exists t, In t (map reqType [request "Int8"; request "Bool"]) /\ ~ supported t /\
             snd r = inl (ErrUnsupportedType t)) /\
  (forall d' rd, randomDevices s !! d' = Some rd ->
                 randomDevices (fst r) !! d' = Some rd) /\
  (forall d', d' <> "known" -> randomDevices (fst r) !! d' = randomDevices s !! d') /\
  (is_Some (randomDevices s !! "known") -> fst r = s) /\
  (randomDevices s !! "known" = None ->
     randomDevices (fst r) !! "known" = Some newRandomDevice) /\
  lc (fst r) = lc s /\ asyncCh (fst r) = asyncCh s.
Proof.
  apply C4_unsupported_read_fails.
  apply Exists_cons_tl, Exists_cons_hd.
  intros [[] H]; discriminate H.
Defined.

(** ** C5: writes at the absolute limits *)




(** ** C6: an update of an unknown field *)




(** ** C7: a read of an unseen device *)

(** C7: a read of a supported width on a device the registry does not know
    succeeds without any write before it.  The driver comes out with the
    device registered under the default bounds, which are the full range of
    each width, and the value returned lies in that range. *)
Theorem C7_read_unseen_device s d p ro w now rand :
  randomDevices s !! d = None ->
  exists v,
    HandleReadCommands s d p [mkReq ro (typeName w)] now rand =
      (mkSimpleDriver (lc s) (asyncCh s) (<[d := newRandomDevice]> (randomDevices s)),
       inr [Some (mkCV ro now (typeTag w) v)]) /\
    currentMin newRandomDevice w = typeFloor (typeTag w) /\
    currentMax newRandomDevice w = typeCeiling (typeTag w) /\
    typeFloor (typeTag w) <= v <= typeCeiling (typeTag w).
Proof.
  intros Hnone. unfold HandleReadCommands.
  rewrite (lookupOrCreate_unknown _ _ Hnone). simpl.
  rewrite value_supported.
  set (v := randomInt (currentMin newRandomDevice w) (currentMax newRandomDevice w) (rand 0%nat)).
  assert (Hv : currentMin newRandomDevice w <= v <= currentMax newRandomDevice w).
  { apply randomInt_range. destruct w; simpl; unfold_limits; lia. }
  assert (Hlo : currentMin newRandomDevice w = typeFloor (typeTag w)) by by destruct w.
  assert (Hhi : currentMax newRandomDevice w = typeCeiling (typeTag w)) by by destruct w.
  exists v. rewrite readValue_supported.
  - repeat split; try done; lia.
  - destruct w; simpl in *; lia.
Qed.

Lemma C7_read_unseen_device_witness :
  exists v,
    HandleReadCommands fresh "d" ∅ [mkReq (mkRO "Int16") (typeName W16)] 1000
        (fun _ => 123456) =
      (mkSimpleDriver (lc fresh) (asyncCh fresh)
         (<["d" := newRandomDevice]> (randomDevices fresh)),
       inr [Some (mkCV (mkRO "Int16") 1000 (typeTag W16) v)]) /\
    currentMin newRandomDevice W16 = typeFloor (typeTag W16) /\
    currentMax newRandomDevice W16 = typeCeiling (typeTag W16) /\
    typeFloor (typeTag W16) <= v <= typeCeiling (typeTag W16).
Proof.
  apply (C7_read_unseen_device fresh "d" ∅ (mkRO "Int16") W16).
  reflexivity.
Defined.

(** ** C8: the frame of a successful update *)



(** ** C9: the lifecycle callbacks *)

(** C9: [Stop] returns no error whether [force] is set or not, and leaves the
    registry as it is; [DisconnectDevice] returns no error for every device
    name and leaves the driver as it is. *)
Theorem C9_lifecycle_always_succeeds s force deviceName protocols :
  snd (Stop s force) = None /\
  randomDevices (fst (Stop s force)) = randomDevices s /\
  DisconnectDevice s deviceName protocols = (s, None).
Proof. repeat split. Qed.

(** ** C10: creation comes before validation *)

(** C10: for a device the registry does not know, a read registers the device
    under the default bounds whatever the requests, also when it fails on an
    unsupported type; a write registers it whatever the updates, and when
    the first update of the batch is rejected the call fails and the entry
    holds the default bounds. *)
Theorem C10_device_registered_before_validation s d p reqs params now rand :
  randomDevices s !! d = None ->
  let r := HandleReadCommands s d p reqs now rand in
  let w := HandleWriteCommands s d p reqs params in
  randomDevices (fst r) !! d = Some newRandomDevice /\
  (Exists (fun req => ~ supported (reqType req)) reqs ->
     exists t, snd r = inl (ErrUnsupportedType t)) /\
  is_Some (randomDevices (fst w) !! d) /\
  (forall bad rest err,
     params = bad :: rest -> rejected bad err ->
     snd w = Some err /\ randomDevices (fst w) !! d = Some newRandomDevice).
Proof.
  intros Hnone r w. subst r w.
  assert (Hdev : device s d = newRandomDevice).
  { unfold device. by rewrite (lookupOrCreate_unknown _ _ Hnone). }
  split.
  { rewrite HandleReadCommands_state, lookupOrCreate_lookup. by rewrite Hdev. }
  split.
  { intros Hex. rewrite HandleReadCommands_result.
    destruct (readLoop_unsupported (device s d) now rand reqs 0%nat Hex)
      as (t & _ & _ & Ht). eauto. }
  split; [rewrite HandleWriteCommands_lookup; eauto|].
  intros bad rest err -> Hbad.
  rewrite HandleWriteCommands_result, HandleWriteCommands_lookup, Hdev.
  simpl. by rewrite Hbad.
Qed.

Lemma C10_device_registered_before_validation_witness :
  let reqs := [request "Float64"] in
  let params := [update "Max_Int8" Int32 1000; update "Min_Int8" Int8 0] in
  let r := HandleReadCommands fresh "d" ∅ reqs 1000 (fun _ => 0) in
  let w := HandleWriteCommands fresh "d" ∅ reqs params in
  randomDevices (fst r) !! "d" = Some newRandomDevice /\
  (Exists (fun req => ~ supported (reqType req)) reqs ->
     exists t, snd r = inl (ErrUnsupportedType t)) /\
  is_Some (randomDevices (fst w) !! "d") /\
  (forall bad rest err,
     params = bad :: rest -> rejected bad err ->
     snd w = Some err /\ randomDevices (fst w) !! "d" = Some newRandomDevice).
Proof.
  apply (C10_device_registered_before_validation fresh "d" ∅).
  reflexivity.
Defined.

(** * Further properties of the driver *)

(** ** Helper facts *)

Lemma device_lookup s d :
  device s d = default newRandomDevice (randomDevices s !! d).
Proof. unfold device, lookupOrCreate. by destruct (randomDevices s !! d). Qed.

Lemma lookupOrCreate_registry s d :
  randomDevices (snd (lookupOrCreate s d)) = <[d := device s d]> (randomDevices s).
Proof.
  unfold device, lookupOrCreate.
  destruct (randomDevices s !! d) as [rd|] eqn:E; simpl; [|done].
  by rewrite insert_id.
Qed.

Lemma randomDevice_ext rd1 rd2 :
  (forall b, getBound b rd1 = getBound b rd2) -> rd1 = rd2.
Proof.
  intros H. destruct rd1, rd2.
  pose proof (H (Lower W8)). pose proof (H (Upper W8)).
  pose proof (H (Lower W16)). pose proof (H (Upper W16)).
  pose proof (H (Lower W32)). pose proof (H (Upper W32)).
  simpl in *. congruence.
Qed.

Lemma writeLoop_all_valid params : forall rd,
  snd (writeLoop rd params) = None -> Forall validUpdate params.
Proof.
  induction params as [|param rest IH]; intros rd Hok; simpl in *; [constructor|].
  destruct (writeParam rd param) as [err|rd'] eqn:Hw; [discriminate|].
  constructor; [|by apply (IH rd')].
  intros rd0. by apply (writeParam_ok_any rd _ _ rd').
Qed.

(** A batch is all valid, or it has a first rejected update. *)
Lemma first_rejected params :
  Forall validUpdate params \/
  exists (pre : list CommandValue) bad post err,
    params = (pre ++ bad :: post)%list /\ Forall validUpdate pre /\
    rejected bad err.
Proof.
  induction params as [|param rest IH]; [left; constructor|].
  destruct (validUpdate_or_rejected param) as [Hv|[err Hr]].
  - destruct IH as [Hall|(pre & bad & post & err & -> & Hpre & Hbad)].
    + left. by constructor.
    + right. exists (param :: pre), bad, post, err. repeat split; [|done].
      by constructor.
  - right. exists [], param, rest, err. repeat split; [constructor|done].
Qed.

Lemma writeLoop_valid_again params rd :
  Forall validUpdate params ->
  fst (writeLoop (fst (writeLoop rd params)) params) = fst (writeLoop rd params).
Proof.
  intros Hall. apply randomDevice_ext. intros b.
  rewrite (writeLoop_lastWritten params (fst (writeLoop rd params)))
    by by apply writeLoop_valid.
  rewrite (writeLoop_lastWritten params rd) by by apply writeLoop_valid.
  by destruct (lastWritten b params).
Qed.

Lemma writeLoop_again params rd :
  writeLoop (fst (writeLoop rd params)) params = writeLoop rd params.
Proof.
  destruct (first_rejected params) as [Hall|(pre & bad & post & err & -> & Hpre & Hbad)].
  - apply injective_projections.
    + by apply writeLoop_valid_again.
    + by rewrite !writeLoop_valid.
  - rewrite !(writeLoop_rejected _ _ _ _ _ Hbad). simpl.
    rewrite writeLoop_valid_again by done. by rewrite !writeLoop_valid.
Qed.

Lemma setBound_comm b1 b2 v1 v2 rd :
  b1 <> b2 ->
  setBound b2 v2 (setBound b1 v1 rd) = setBound b1 v1 (setBound b2 v2 rd).
Proof. destruct b1 as [[]|[]], b2 as [[]|[]]; simpl; congruence. Qed.

Lemma device_HandleWriteCommands s d p reqs params :
  device (fst (HandleWriteCommands s d p reqs params)) d =
    fst (writeLoop (device s d) params).
Proof. by rewrite device_lookup, HandleWriteCommands_lookup. Qed.

Lemma value_ok_supported rd t r v : value rd t r = inr v -> supported t.
Proof.
  intros H. destruct (supported_dec t) as [Hs|Hn]; [done|].
  rewrite (value_unsupported _ _ _ Hn) in H. discriminate.
Qed.

Lemma readValue_stamped ro w now v :
  stamped now (mkReq ro (typeName w)) (readValue (mkReq ro (typeName w)) now v).
Proof.
  exists w. destruct w; unfold readValue; simpl; eexists;
    (split; [reflexivity|]); (split; [reflexivity|]); simpl;
    (split; [reflexivity|]); (split; [reflexivity|]); (split; [reflexivity|]);
    unfold fits; simpl.
  - apply int8_range.
  - apply int16_range.
  - apply int32_range.
Qed.



Lemma readLoop_stamped rd now rand reqs : forall i res,
  readLoop rd now rand i reqs = inr res -> Forall2 (stamped now) reqs res.
Proof.
  induction reqs as [|req rest IH]; intros i res; simpl.
  - intros [= <-]. constructor.
  - destruct (value rd (reqType req) (rand i)) as [err|v] eqn:Hv; [discriminate|].
    destruct (readLoop rd now rand (S i) rest) as [err|res'] eqn:Hr; [discriminate|].
    intros [= <-]. constructor; [|by apply (IH (S i))].
    destruct (value_ok_supported _ _ _ _ Hv) as [w Hw].
    destruct req as [ro t]; simpl in Hw; subst t. apply readValue_stamped.
Qed.

(** ** What a read does to the driver *)

(** X1: a read on device [d] registers [d] and nothing else, whatever the
    requests and whether it fails or not: the registered names are those of
    before and [d]; every device that was registered keeps its bounds, every
    name has the bounds a callback would have found before, the logger and
    the channel are untouched, and a second read on [d] changes nothing. *)
Theorem read_only_registers_the_device s d p reqs now rand :
  let s' := fst (HandleReadCommands s d p reqs now rand) in
  dom (randomDevices s') = {[d]} ∪ dom (randomDevices s) /\
  (forall d' rd, randomDevices s !! d' = Some rd ->
                 randomDevices s' !! d' = Some rd) /\
  (forall d', device s' d' = device s d') /\
  lc s' = lc s /\ asyncCh s' = asyncCh s /\
  (forall p' reqs' now' rand',
     fst (HandleReadCommands s' d p' reqs' now' rand') = s').
Proof.
  intros s'. subst s'. rewrite HandleReadCommands_state.
  split; [rewrite lookupOrCreate_registry; apply dom_insert_L|].
  split; [intros d' rd; apply lookupOrCreate_keeps|].
  split.
  { intros d'. rewrite !device_lookup. destruct (decide (d' = d)) as [->|Hne].
    - by rewrite lookupOrCreate_lookup, device_lookup.
    - by rewrite lookupOrCreate_other. }
  split; [unfold lookupOrCreate; by destruct (randomDevices s !! d)|].
  split; [unfold lookupOrCreate; by destruct (randomDevices s !! d)|].
  intros p' reqs' now' rand'. rewrite HandleReadCommands_state.
  by rewrite (lookupOrCreate_known _ _ _ (lookupOrCreate_lookup s d)).
Qed.

(** X2: after a read on any device, every read and every write behaves as it
    would have without it: same result, same error, same bounds left. *)
Theorem read_is_silent s d0 p0 reqs0 now0 rand0 d p reqs params now rand :
  let s' := fst (HandleReadCommands s d0 p0 reqs0 now0 rand0) in
  snd (HandleReadCommands s' d p reqs now rand)
    = snd (HandleReadCommands s d p reqs now rand) /\
  snd (HandleWriteCommands s' d p reqs params)
    = snd (HandleWriteCommands s d p reqs params) /\
  device (fst (HandleWriteCommands s' d p reqs params)) d
    = device (fst (HandleWriteCommands s d p reqs params)) d.
Proof.
  intros s'.
  assert (Hdev : device s' d = device s d).
  { subst s'. rewrite HandleReadCommands_state, !device_lookup.
    destruct (decide (d = d0)) as [->|Hne].
    - by rewrite lookupOrCreate_lookup, device_lookup.
    - by rewrite lookupOrCreate_other. }
  rewrite !HandleReadCommands_result, !HandleWriteCommands_result,
    !device_HandleWriteCommands. by rewrite Hdev.
Qed.

(** X3: a read that succeeds returns one command value for each request, in
    order: none is nil, each carries the resource operation of its request,
    the clock reading and the requested type, and its content is a value of
    that type, whatever the bounds of the device are. *)
Theorem read_result_shape s d p reqs now rand res :
  snd (HandleReadCommands s d p reqs now rand) = inr res ->
  length res = length reqs /\ Forall2 (stamped now) reqs res.
Proof.
  rewrite HandleReadCommands_result. intros H.
  apply readLoop_stamped in H. split; [|done].
  symmetry. by eapply Forall2_length.
Qed.

Lemma read_result_shape_witness :
  let s := mkSimpleDriver [] 0%N
             {[ "d" := mkRandomDevice 1000 2000 0 0 0 0 ]} in
  let reqs := [request "Int8"; request "Int16"] in
  let res := [Some (mkCV (mkRO "Int8") 5 Int8 (-17));
              Some (mkCV (mkRO "Int16") 5 Int16 0)] in
  length res = length reqs /\ Forall2 (stamped 5) reqs res.
Proof.
  apply (read_result_shape (mkSimpleDriver [] 0%N
           {[ "d" := mkRandomDevice 1000 2000 0 0 0 0 ]}) "d" ∅ _ 5 (fun _ => 7)).
  vm_compute. reflexivity.
Defined.




(** ** What a write does to the driver *)

(** X6: a write on device [d] touches the entry of [d] only, whatever the
    batch and whether it fails or not: the registered names are those of
    before and [d], every other entry is as it was, and the logger and the
    channel are untouched. *)
Theorem write_only_touches_the_device s d p reqs params :
  let s' := fst (HandleWriteCommands s d p reqs params) in
  dom (randomDevices s') = {[d]} ∪ dom (randomDevices s) /\
  (forall d', d' <> d -> randomDevices s' !! d' = randomDevices s !! d') /\
  lc s' = lc s /\ asyncCh s' = asyncCh s.
Proof.
  intros s'. subst s'. rewrite HandleWriteCommands_unfold. simpl.
  split; [apply dom_insert_L|]. split; [|done].
  intros d' Hne. by apply lookup_insert_ne.
Qed.

(** X7: a write succeeds exactly when every update of the batch is one the
    driver accepts on its own; in particular the empty batch succeeds. *)
Theorem write_succeeds_iff_all_valid s d p reqs params :
  snd (HandleWriteCommands s d p reqs params) = None <->
  Forall validUpdate params.
Proof.
  rewrite HandleWriteCommands_result. split.
  - apply writeLoop_all_valid.
  - apply writeLoop_valid.
Qed.

(** X8: batches compose: writing [a ++ b] is writing [a] and, when that
    succeeded, writing [b] on the driver it left; when [a] failed, [b] is
    ignored. *)
Theorem write_batches_compose s d p reqs a b :
  HandleWriteCommands s d p reqs (a ++ b) =
    match snd (HandleWriteCommands s d p reqs a) with
    | None => HandleWriteCommands (fst (HandleWriteCommands s d p reqs a)) d p reqs b
    | Some err => HandleWriteCommands s d p reqs a
    end.
Proof.
  rewrite HandleWriteCommands_result.
  destruct (snd (writeLoop (device s d) a)) as [err|] eqn:Ha.
  - rewrite !HandleWriteCommands_unfold, writeLoop_app.
    destruct (writeLoop (device s d) a) as [rd' r]; simpl in *. by subst r.
  - rewrite (HandleWriteCommands_unfold (fst _)).
    rewrite device_HandleWriteCommands.
    rewrite !HandleWriteCommands_unfold, writeLoop_app. simpl.
    destruct (writeLoop (device s d) a) as [rd' r]; simpl in *. subst r.
    by rewrite insert_insert_eq.
Qed.

(** X9: in a batch that succeeds the last update of a bound wins: each bound
    of the device ends with the value of the last update that names it, and
    a bound that no update names keeps its value. *)
Theorem write_last_update_wins s d p reqs params b :
  snd (HandleWriteCommands s d p reqs params) = None ->
  getBound b (device (fst (HandleWriteCommands s d p reqs params)) d) =
    default (getBound b (device s d)) (lastWritten b params).
Proof.
  rewrite HandleWriteCommands_result, device_HandleWriteCommands.
  apply writeLoop_lastWritten.
Qed.

Lemma write_last_update_wins_witness :
  let params := [update "Max_Int8" Int8 5; update "Min_Int16" Int16 (-9);
                 update "Max_Int8" Int8 60] in
  getBound (Upper W8) (device (fst (HandleWriteCommands fresh "d" ∅ [] params)) "d") =
    default (getBound (Upper W8) (device fresh "d")) (lastWritten (Upper W8) params).
Proof.
  apply (write_last_update_wins fresh "d" ∅ []). reflexivity.
Defined.

(** X10: a write is idempotent: sending the same batch again, accepted or
    not, returns the same error and leaves the driver as the first call
    left it. *)
Theorem write_twice_is_write_once s d p reqs params :
  HandleWriteCommands (fst (HandleWriteCommands s d p reqs params)) d p reqs params
    = HandleWriteCommands s d p reqs params.
Proof.
  rewrite (HandleWriteCommands_unfold (fst _)).
  rewrite device_HandleWriteCommands, writeLoop_again.
  rewrite !HandleWriteCommands_unfold. simpl. by rewrite insert_insert_eq.
Qed.

(** X11: two accepted updates of different fields commute: the driver ends
    in the same state whichever comes first. *)
Theorem writes_of_different_bounds_commute s d p reqs p1 p2 :
  validUpdate p1 -> validUpdate p2 ->
  Object (RO p1) <> Object (RO p2) ->
  HandleWriteCommands s d p reqs [p1; p2] = HandleWriteCommands s d p reqs [p2; p1].
Proof.
  intros H1 H2 Hne. rewrite !HandleWriteCommands_unfold. simpl.
  destruct (H1 (device s d)) as [rd1 E1]. destruct (H2 (device s d)) as [rd2 E2].
  rewrite E1, E2.
  destruct (writeParam_accepted _ _ _ E1) as (b1 & v1 & N1 & V1 & ->).
  destruct (writeParam_accepted _ _ _ E2) as (b2 & v2 & N2 & V2 & ->).
  assert (Hb : b1 <> b2) by (intros ->; congruence).
  rewrite (writeParam_recognized _ _ b2 N2), V2, (rangeError_never _ _ _ V2).
  rewrite (writeParam_recognized _ _ b1 N1), V1, (rangeError_never _ _ _ V1).
  simpl. by rewrite (setBound_comm b1 b2).
Qed.

Lemma writes_of_different_bounds_commute_witness :
  HandleWriteCommands fresh "d" ∅ []
      [update "Min_Int32" Int32 (-4); update "Max_Int8" Int8 4]
    = HandleWriteCommands fresh "d" ∅ []
      [update "Max_Int8" Int8 4; update "Min_Int32" Int32 (-4)].
Proof.
  apply writes_of_different_bounds_commute.
  - intros rd. eexists. reflexivity.
  - intros rd. eexists. reflexivity.
  - discriminate.
Defined.

(** X12: devices are isolated: a write on one device changes neither the
    result of a read nor the result and effect of a write on another. *)
Theorem write_does_not_reach_other_devices
    s d0 p0 reqs0 params0 d p reqs params now rand :
  d <> d0 ->
  let s' := fst (HandleWriteCommands s d0 p0 reqs0 params0) in
  snd (HandleReadCommands s' d p reqs now rand)
    = snd (HandleReadCommands s d p reqs now rand) /\
  snd (HandleWriteCommands s' d p reqs params)
    = snd (HandleWriteCommands s d p reqs params) /\
  device (fst (HandleWriteCommands s' d p reqs params)) d
    = device (fst (HandleWriteCommands s d p reqs params)) d.
Proof.
  intros Hne s'.
  assert (Hdev : device s' d = device s d).
  { subst s'. rewrite !device_lookup. by rewrite HandleWriteCommands_other. }
  rewrite !HandleReadCommands_result, !HandleWriteCommands_result,
    !device_HandleWriteCommands. by rewrite Hdev.
Qed.

Lemma write_does_not_reach_other_devices_witness :
  let s' := fst (HandleWriteCommands fresh "boiler" ∅ []
                   [update "Min_Int8" Int8 100; update "Max_Int8" Int8 101]) in
  snd (HandleReadCommands s' "pump" ∅ [request "Int8"] 5 (fun _ => 33))
    = snd (HandleReadCommands fresh "pump" ∅ [request "Int8"] 5 (fun _ => 33)) /\
  snd (HandleWriteCommands s' "pump" ∅ [request "Int8"] [update "Max_Int8" Int8 1])
    = snd (HandleWriteCommands fresh "pump" ∅ [request "Int8"] [update "Max_Int8" Int8 1]) /\
  device (fst (HandleWriteCommands s' "pump" ∅ [request "Int8"]
                 [update "Max_Int8" Int8 1])) "pump"
    = device (fst (HandleWriteCommands fresh "pump" ∅ [request "Int8"]
                     [update "Max_Int8" Int8 1])) "pump".
Proof.
  apply (write_does_not_reach_other_devices fresh "boiler" ∅ []).
  discriminate.
Defined.

(** ** The lifecycle callbacks and the data path *)

(** X13: stopping the service or disconnecting a device forgets nothing: the
    registry is as it was, so every read and write that follows returns
    what it would have returned and leaves the bounds it would have left;
    a disconnected device keeps the bounds written to it. *)
Theorem lifecycle_keeps_the_bounds s force d0 p0 d p reqs params now rand :
  let s1 := fst (Stop s force) in
  let s2 := fst (DisconnectDevice s d0 p0) in
  (forall d', device s1 d' = device s d' /\ device s2 d' = device s d') /\
  snd (HandleReadCommands s1 d p reqs now rand)
    = snd (HandleReadCommands s d p reqs now rand) /\
  snd (HandleWriteCommands s1 d p reqs params)
    = snd (HandleWriteCommands s d p reqs params) /\
  randomDevices (fst (HandleWriteCommands s1 d p reqs params))
    = randomDevices (fst (HandleWriteCommands s d p reqs params)) /\
  HandleReadCommands s2 d p reqs now rand = HandleReadCommands s d p reqs now rand /\
  HandleWriteCommands s2 d p reqs params = HandleWriteCommands s d p reqs params.
Proof.
  intros s1 s2. subst s2. simpl.
  assert (Hdev : forall d', device s1 d' = device s d').
  { intros d'. by rewrite !device_lookup. }
  split; [by intros d'|].
  rewrite !HandleReadCommands_result, !HandleWriteCommands_result, Hdev.
  split; [done|]. split; [done|]. split; [|done].
  rewrite !HandleWriteCommands_unfold. simpl. by rewrite Hdev.
Qed.
